(** * Convergence-agent interfaces of [flocker/node/_deploy.py]

    A shallow embedding of the node-local state model ([NodeLocalState]),
    of the usage filter ([NotInUseDatasets]) and of the deployer interface
    ([IDeployer]) with the loop that drives it, and the properties the
    specification states about them. *)

From Stdlib Require Import Ascii String.
From stdpp Require Import gmap strings list.

(** ** Python values and exceptions *)

(** [unicode] strings. *)
Abbreviation unicode := string.

(** The exceptions that the modelled code can raise. *)
Inductive PyExc : Type :=
  | ValueError (msg : string)
  | AttributeError (msg : string)
  | InvariantException (missing_field : string).

(** The outcome of an expression: [inl e] when it raised [e]. *)
Definition PyResult (A : Type) : Type := (PyExc + A)%type.

(** The expression returned a value. *)
Definition returned {A} (r : PyResult A) : Prop := ∃ a, r = inr a.

#[global] Instance PyExc_eq_dec : EqDecision PyExc.
Proof. solve_decision. Defined.

#[global] Instance returned_dec {A} (r : PyResult A) : Decision (returned r).
Proof.
  destruct r as [e|a]; [right; intros [a ?]; discriminate | left; by exists a].
Defined.

(** ** [uuid.UUID]

    A [UUID] object is its 128-bit integer: [__eq__] and [__hash__] of the
    standard class are those of the [int] attribute. *)
Record UUID : Type := mkUUID { int : N }.

#[global] Instance UUID_eq_dec : EqDecision UUID.
Proof. solve_decision. Defined.

#[global] Instance UUID_countable : Countable UUID.
Proof. by apply (inj_countable' int mkUUID); intros []. Defined.

(** The constructor [UUID(hex)] of the standard library, on byte strings:
    [[
      hex = hex.replace('urn:', '').replace('uuid:', '')
      hex = hex.strip('{}').replace('-', '')
      if len(hex) != 32: raise ValueError('badly formed hexadecimal UUID string')
      int = long(hex, 16)
      if not 0 <= int < 1<<128L: raise ValueError('int is out of range ...')
    ]]
    [long(hex, 16)] is modelled on strings of hexadecimal digits; the sign,
    radix prefix and blanks that it also tolerates are rejected here.  The
    filter below takes the constructor as a parameter ([UUID_constructor]),
    so nothing proved about the filter in general depends on this choice;
    this function serves the concrete scenarios. *)
Module uuid.

(** [s.replace(pat, '')] for a non-empty [pat]: the occurrences of [pat]
    are removed from left to right; [skip] counts the characters of the
    occurrence being removed. *)
Fixpoint remove_from (pat : string) (skip : nat) (s : string) : string :=
  match s with
  | EmptyString => EmptyString
  | String c s' =>
      match skip with
      | S k => remove_from pat k s'
      | O =>
          if String.prefix pat s
          then remove_from pat (String.length pat - 1) s'
          else String c (remove_from pat 0 s')
      end
  end.

Definition replace_with_empty (pat s : string) : string :=
  remove_from pat 0 s.

Definition is_brace (c : ascii) : bool :=
  bool_decide (c = "{"%char) || bool_decide (c = "}"%char).

Fixpoint lstrip_braces (s : string) : string :=
  match s with
  | String c s' => if is_brace c then lstrip_braces s' else s
  | EmptyString => EmptyString
  end.

Fixpoint rstrip_braces (s : string) : string :=
  match s with
  | EmptyString => EmptyString
  | String c s' =>
      match rstrip_braces s' with
      | EmptyString => if is_brace c then EmptyString else String c EmptyString
      | r => String c r
      end
  end.

(** [s.strip('{}')] *)
Definition strip_braces (s : string) : string :=
  rstrip_braces (lstrip_braces s).

Definition hex_digit (c : ascii) : option N :=
  let n := N_of_ascii c in
  if (48 <=? n)%N && (n <=? 57)%N then Some (n - 48)%N
  else if (97 <=? n)%N && (n <=? 102)%N then Some (n - 87)%N
  else if (65 <=? n)%N && (n <=? 70)%N then Some (n - 55)%N
  else None.

Fixpoint hex_value (acc : N) (s : string) : option N :=
  match s with
  | EmptyString => Some acc
  | String c s' =>
      match hex_digit c with
      | Some d => hex_value (16 * acc + d)%N s'
      | None => None
      end
  end.

(** [long(hex, 16)] on a non-empty string of hexadecimal digits. *)
Definition long16 (hex : string) : PyResult N :=
  match hex with
  | EmptyString => inl (ValueError "invalid literal for long() with base 16")
  | _ =>
      match hex_value 0 hex with
      | Some n => inr n
      | None => inl (ValueError "invalid literal for long() with base 16")
      end
  end.

Definition UUID (hex : unicode) : PyResult UUID :=
  let hex := replace_with_empty "uuid:" (replace_with_empty "urn:" hex) in
  let hex := replace_with_empty "-" (strip_braces hex) in
  if bool_decide (String.length hex ≠ 32)
  then inl (ValueError "badly formed hexadecimal UUID string")
  else
    match long16 hex with
    | inl e => inl e
    | inr n =>
        if bool_decide (n < 2 ^ 128)%N then inr (mkUUID n)
        else inl (ValueError "int is out of range (need a 128-bit value)")
    end.

End uuid.

(** The constructor the filter calls, [UUID(u_dataset_id)]: any function
    from strings to a [UUID] or an exception. *)
Class UUID_constructor : Type := UUID_of : unicode → PyResult UUID.

(** ** State and exceptions

    A computation reads and writes a store of type [S] and either returns a
    value or raises; the store survives a [raise], as in Python. *)
Definition M (S A : Type) : Type := S → PyResult A * S.

#[global] Instance M_ret {S} : MRet (M S) := λ A a σ, (inr a, σ).

#[global] Instance M_bind {S} : MBind (M S) := λ A B k m σ,
  match m σ with
  | (inl e, σ') => (inl e, σ')
  | (inr a, σ') => k a σ'
  end.

(** An expression that does not touch the store. *)
Definition lift {S A} (r : PyResult A) : M S A := λ σ, (r, σ).

(** Reading from the store. *)
Definition gets {S A} (f : S → A) : M S A := λ σ, (inr (f σ), σ).

(** ** The objects the filter reads *)

(** Modelled from the spec: the classes of [flocker.control._model] behind
    "local resource users (entities each optionally referencing a resource
    by an identifier)"; the attribute path is that of the source,
    [app.volume.manifestation.dataset_id], and [volume] may be [None]. *)
Record Manifestation : Type := { dataset_id : unicode }.

#[global] Instance Manifestation_eq_dec : EqDecision Manifestation.
Proof. solve_decision. Defined.

Record AttachedVolume : Type := { manifestation : Manifestation }.

Record Application : Type := { volume : option AttachedVolume }.

(** Modelled from the spec: "a lease record containing (at minimum) the
    owning node identifier". *)
Record Lease : Type := { node_id : UUID }.

(** Modelled from the spec: the lease table, "a mapping from resource
    identifier to a lease record". *)
Abbreviation Leases := (gmap UUID Lease).

(** ** [NotInUseDatasets] *)

(** The attributes of an instance. *)
Record NotInUseDatasets : Type := {
  _node_id : UUID;
  _in_use_datasets : gset unicode;
  _leases : Leases
}.

(** [NotInUseDatasets.__init__] *)
Definition __init__ (node_uuid : UUID) (local_applications : list Application)
    (leases : Leases) : NotInUseDatasets :=
  {| _node_id := node_uuid;
     _in_use_datasets :=
       list_to_set
         (omap (λ app, match volume app with
                       | Some v => Some (dataset_id (manifestation v))
                       | None => None
                       end) local_applications);
     _leases := leases |}.

(** The default value of [get_dataset_id], [lambda d: unicode(d.dataset_id)],
    on objects whose [dataset_id] is a [unicode]. *)
Definition default_get_dataset_id (d : Manifestation) : unicode := dataset_id d.

Section UsageFilter.
Context {Obj : Type} {UC : UUID_constructor}.

(** What a call can reach: the instance and the list it is given. *)
Record Store : Type := { self : NotInUseDatasets; objects : list Obj }.

(** The body of the [for] loop, on the local list [result]; returning
    [result] as it is stands for [continue]. *)
Definition loop_body (get_dataset_id : Obj → unicode) (obj : Obj)
    (result : list Obj) : M Store (list Obj) :=
  let u_dataset_id := get_dataset_id obj in
  dataset_id ← lift (UUID_of u_dataset_id);
  in_use_datasets ← gets (λ σ, _in_use_datasets (self σ));
  if bool_decide (u_dataset_id ∈ in_use_datasets) then mret result
  else
    leases ← gets (λ σ, _leases (self σ));
    match leases !! dataset_id with
    | Some lease =>
        node_id' ← gets (λ σ, _node_id (self σ));
        if bool_decide (node_id lease = node_id') then mret result
        else mret (result ++ [obj])
    | None => mret (result ++ [obj])
    end.

Fixpoint for_each (get_dataset_id : Obj → unicode) (objs : list Obj)
    (result : list Obj) : M Store (list Obj) :=
  match objs with
  | [] => mret result
  | obj :: objs' =>
      result' ← loop_body get_dataset_id obj result;
      for_each get_dataset_id objs' result'
  end.

(** [NotInUseDatasets.__call__] *)
Definition __call__ (get_dataset_id : Obj → unicode) : M Store (list Obj) :=
  objs ← gets objects;
  for_each get_dataset_id objs [].

(** The value of [f(objs, get_dataset_id)] for an instance [f]. *)
Definition call (f : NotInUseDatasets) (objs : list Obj)
    (get_dataset_id : Obj → unicode) : PyResult (list Obj) :=
  (__call__ get_dataset_id {| self := f; objects := objs |}).1.

(** [n] calls in a row, with the value of each. *)
Fixpoint repeat_call (get_dataset_id : Obj → unicode) (n : nat) (σ : Store)
    : list (PyResult (list Obj)) * Store :=
  match n with
  | O => ([], σ)
  | S n' =>
      let '(r, σ') := __call__ get_dataset_id σ in
      let '(rs, σ'') := repeat_call get_dataset_id n' σ' in
      (r :: rs, σ'')
  end.

(** *** The specification's notion of "in use"

    The next two definitions follow the words of the specification, to be
    compared with what the loop does: "a resource identifier is in use if
    either (a) it appears in the locally-used set, or (b) it has a lease
    owned by this node". *)

(** The identifier [d] has a lease owned by the node of the filter. *)
Definition leased_here (f : NotInUseDatasets) (d : UUID) : Prop :=
  ∃ lease, _leases f !! d = Some lease ∧ node_id lease = _node_id f.

(** The identifier of [obj] is in the locally-used set, or it parses to an
    identifier that is leased by this node. *)
Definition in_use (f : NotInUseDatasets) (get_dataset_id : Obj → unicode)
    (obj : Obj) : Prop :=
  get_dataset_id obj ∈ _in_use_datasets f ∨
  ∃ d, UUID_of (get_dataset_id obj) = inr d ∧ leased_here f d.

#[global] Instance leased_here_dec f d : Decision (leased_here f d).
Proof.
  unfold leased_here. destruct (_leases f !! d) as [lease|] eqn:E.
  - destruct (decide (node_id lease = _node_id f)) as [Hn|Hn].
    + left. by exists lease.
    + right. intros (l & Hl & Hl'). congruence.
  - right. intros (l & Hl & _). discriminate.
Defined.

#[global] Instance in_use_dec f get_dataset_id obj :
  Decision (in_use f get_dataset_id obj).
Proof.
  unfold in_use.
  destruct (decide (get_dataset_id obj ∈ _in_use_datasets f)) as [Hi|Hi].
  { left. by left. }
  destruct (UUID_of (get_dataset_id obj)) as [e|d] eqn:E.
  - right. intros [?|(d & Hd & _)]; [done | discriminate].
  - destruct (decide (leased_here f d)) as [Hl|Hl].
    + left. right. by exists d.
    + right. intros [?|(d' & Hd & Hl')]; [done | congruence].
Defined.

(** The exception of the first candidate whose identifier does not parse. *)
Fixpoint first_failure (get_dataset_id : Obj → unicode) (objs : list Obj)
    : option PyExc :=
  match objs with
  | [] => None
  | obj :: objs' =>
      match UUID_of (get_dataset_id obj) with
      | inl e => Some e
      | inr _ => first_failure get_dataset_id objs'
      end
  end.

End UsageFilter.

Arguments Store : clear implicits.

(** ** [ILocalState] and [NodeLocalState] *)

(** The interface [ILocalState]: [shared_state_changes()] returns the tuple
    of [IClusterStateChange] providers to send to the control service. *)
Class ILocalState (IClusterStateChange T : Type) : Type :=
  shared_state_changes : T → list IClusterStateChange.

Section NodeLocalState.
(** [flocker.control._model.NodeState] *)
Context {NodeState : Type}.

(** [node_state = field(type=NodeState, mandatory=True)] *)
Record NodeLocalState : Type := { node_state : NodeState }.

(** [NodeLocalState(node_state=...)]: the keyword may be left out, and a
    mandatory field that is missing is refused by [PClass]. *)
Definition NodeLocalState_new (node_state : option NodeState)
    : PyResult NodeLocalState :=
  match node_state with
  | Some ns => inr {| node_state := ns |}
  | None => inl (InvariantException "node_state")
  end.

(** [NodeLocalState.shared_state_changes]: [return (self.node_state,)] *)
#[global] Instance NodeLocalState_shared_state_changes
    : ILocalState NodeState NodeLocalState :=
  λ self, [node_state self].

(** *** Instances in a heap

    Instances live at addresses.  A program constructs instances, calls
    the method of the class, and runs what the class inherits from its
    base class [PClass]; the base class is not part of [_deploy.py], and
    its operations are a parameter of the programs, [inherited]. *)
Inductive Value : Type :=
  | VNone
  | VInstance (x : positive)
  | VNodeState (v : NodeState)
  | VTuple (vs : list NodeState).

Abbreviation Heap := (gmap positive NodeLocalState).

(** A new instance, at an address that is not in use. *)
Definition alloc (o : NodeLocalState) : M Heap positive := λ h,
  let x := fresh (dom h) in (inr x, <[x := o]> h).

(** The instance a reference points to.  Python has no reference to an
    address without an object; a statement on one is made to raise. *)
Definition deref (x : positive) : M Heap NodeLocalState := λ h,
  match h !! x with
  | Some o => (inr o, h)
  | None => (inl (AttributeError "no such object"), h)
  end.

(** [NodeLocalState(node_state=...)] in a heap: the address of the new
    instance. *)
Definition construct (node_state : option NodeState) : M Heap positive :=
  o ← lift (NodeLocalState_new node_state); alloc o.

(** [x.shared_state_changes()] for the instance at the address [x]: the
    method reads [self.node_state] and returns the tuple. *)
Definition call_shared_state_changes (x : positive)
    : M Heap (list NodeState) :=
  self ← deref x; mret (shared_state_changes self).

(** The operations of the base class, on the instance at an address. *)
Context {PClassOp : Type}.
Variable inherited : PClassOp → positive → M Heap Value.

Inductive Stmt : Type :=
  | Construct (node_state : option NodeState)
  | CallSharedStateChanges (x : positive)
  | Inherited (op : PClassOp) (x : positive).

Definition exec (s : Stmt) : M Heap Value :=
  match s with
  | Construct node_state =>
      x ← construct node_state; mret (VInstance x)
  | CallSharedStateChanges x =>
      changes ← call_shared_state_changes x; mret (VTuple changes)
  | Inherited op x => inherited op x
  end.

(** A program: statements one after the other, an exception ending only
    the statement that raised it. *)
Fixpoint exec_all (p : list Stmt) (h : Heap) : Heap :=
  match p with
  | [] => h
  | s :: p' => exec_all p' (exec s h).2
  end.

(** The computation [m] leaves the instance [o] at the address [x]. *)
Definition keeps {A} (x : positive) (o : NodeLocalState) (m : M Heap A) : Prop :=
  ∀ h, h !! x = Some o → (m h).2 !! x = Some o.

End NodeLocalState.

Arguments NodeLocalState : clear implicits.
Arguments Stmt : clear implicits.
Arguments Value : clear implicits.

(** Modelled from the spec: the operations on the field that an instance
    inherits from the base class [pyrsistent.PClass], which is not in
    [src/]: reading the field, assigning to it, deleting it, and [set].
    The spec: "the object is immutable once constructed (a discovery pass
    produces a fresh instance each cycle; no in-place mutation)". *)
Inductive PClassOp (NodeState : Type) : Type :=
  | GetAttr
  | SetAttr (v : NodeState)
  | DelAttr
  | EvolveSet (v : NodeState).

Arguments GetAttr {NodeState}.
Arguments SetAttr {NodeState} v.
Arguments DelAttr {NodeState}.
Arguments EvolveSet {NodeState} v.

(** Modelled from the spec: what the inherited operations do, for the
    same sentence of the spec: assignment and deletion are refused, and
    [set] constructs a new instance. *)
Definition pclass_exec {NodeState : Type} (op : PClassOp NodeState)
    (x : positive)
    : M (gmap positive (NodeLocalState NodeState)) (Value NodeState) :=
  match op with
  | GetAttr => o ← deref x; mret (VNodeState (node_state o))
  | SetAttr v => _ ← deref x; lift (inl (AttributeError "Can't set attribute"))
  | DelAttr => _ ← deref x; lift (inl (AttributeError "Can't delete attribute"))
  | EvolveSet v =>
      _ ← deref x; x' ← construct (Some v); mret (VInstance x')
  end.

(** ** The convergence loop *)

(** What [calculate_changes] returns: [flocker.node.NoOp] or another
    [IStateChange] provider. *)
Inductive IStateChange (StateChange : Type) : Type :=
  | NoOp
  | Change (c : StateChange).

Arguments NoOp {StateChange}.
Arguments Change {StateChange} c.

Section ConvergenceLoop.
(** [NodeState], [Deployment] and [DeploymentState] of
    [flocker.control._model], the registry, and the state changes. *)
Context {NodeState Deployment DeploymentState Registry StateChange : Type}.
Context {LocalState : Type} `{!ILocalState NodeState LocalState}.

(** The interface [IDeployer].  [poll_interval] is counted in ticks of the
    driver's clock; [discover_state] is given with the value its
    [Deferred] fires with. *)
Record IDeployer : Type := {
  node_uuid : UUID;
  hostname : unicode;
  poll_interval : N;
  discover_state : NodeState → LocalState;
  calculate_changes :
    Deployment → DeploymentState → Registry → LocalState → IStateChange StateChange
}.

(** The registry handed to [calculate_changes], the node's entry in a
    cluster state, and the folding of a shared change into a cluster
    state: opaque to the loop. *)
Variable registry : Registry.
Variable node_state_of : UUID → DeploymentState → NodeState.
Variable update_cluster_state : NodeState → DeploymentState → DeploymentState.

(** Modelled from the spec: the driver of the convergence loop, which is
    not part of [_deploy.py].  After a no-op it sleeps until
    [now + poll_interval]; otherwise it applies the change and iterates
    again when the change is done. *)
Inductive Phase : Type :=
  | Sleeping (wake_at : N) (local_state : LocalState)
  | Applying (change : StateChange).

(** Modelled from the spec: the state of the driver, with its clock, the
    configuration and cluster state last pushed, and the log of the times
    at which [discover_state] was called (latest first). *)
Record Loop : Type := {
  now : N;
  configuration : Deployment;
  cluster_state : DeploymentState;
  phase : Phase;
  discoveries : list N
}.

(** Modelled from the spec: what the driver reacts to. [Advance] moves the
    clock, [Push] is a configuration/cluster-state update from the control
    service, [LocalTimer] any other timer of the node, [Applied] the end
    of the change being applied. *)
Inductive Event : Type :=
  | Advance (dt : N)
  | Push (configuration : Deployment) (cluster_state : DeploymentState)
  | LocalTimer
  | Applied.

(** Modelled from the spec: the clock of the driver moves to [t]. *)
Definition set_now (t : N) (l : Loop) : Loop :=
  {| now := t; configuration := configuration l;
     cluster_state := cluster_state l; phase := phase l;
     discoveries := discoveries l |}.

(** Modelled from the spec: the driver records what the control service
    pushed. *)
Definition set_pushed (c : Deployment) (s : DeploymentState) (l : Loop) : Loop :=
  {| now := now l; configuration := c; cluster_state := s; phase := phase l;
     discoveries := discoveries l |}.

(** Modelled from the spec: the discovery of an iteration, seeded with the
    previously known node state. *)
Definition discovered (d : IDeployer) (l : Loop) : LocalState :=
  discover_state d (node_state_of (node_uuid d) (cluster_state l)).

(** Modelled from the spec: the cluster state "already folded with this
    cycle's discovery". *)
Definition folded (d : IDeployer) (l : Loop) : DeploymentState :=
  foldr update_cluster_state (cluster_state l)
        (shared_state_changes (discovered d l)).

(** Modelled from the spec: the change calculated by an iteration. *)
Definition calculated (d : IDeployer) (l : Loop) : IStateChange StateChange :=
  calculate_changes d (configuration l) (folded d l) registry (discovered d l).

(** Modelled from the spec: one iteration, discover then calculate. *)
Definition iterate (d : IDeployer) (l : Loop) : Loop :=
  {| now := now l;
     configuration := configuration l;
     cluster_state := folded d l;
     phase := match calculated d l with
              | NoOp => Sleeping (now l + poll_interval d) (discovered d l)
              | Change c => Applying c
              end;
     discoveries := now l :: discoveries l |}.

(** Modelled from the spec: the reaction of the driver to an event.  A
    sleep ends when the clock reaches [wake_at] or when a push "would
    result in need to run some [IStateChange]" (docstring of
    [calculate_changes]); a local timer ends nothing. *)
Definition step (d : IDeployer) (l : Loop) (ev : Event) : Loop :=
  match phase l, ev with
  | Sleeping wake_at _, Advance dt =>
      let l' := set_now (now l + dt) l in
      if (wake_at <=? now l')%N then iterate d l' else l'
  | Sleeping _ local_state, Push c s =>
      let l' := set_pushed c s l in
      match calculate_changes d c s registry local_state with
      | NoOp => l'
      | Change _ => iterate d l'
      end
  | Sleeping _ _, LocalTimer => l
  | Sleeping _ _, Applied => l
  | Applying _, Advance dt => set_now (now l + dt) l
  | Applying _, Push c s => set_pushed c s l
  | Applying _, LocalTimer => l
  | Applying _, Applied => iterate d l
  end.

(** Modelled from the spec: the driver reacting to events one after the
    other. *)
Definition run (d : IDeployer) (evs : list Event) (l : Loop) : Loop :=
  foldl (step d) l evs.

(** The event is a push of the control service. *)
Definition is_push (ev : Event) : bool :=
  match ev with Push _ _ => true | _ => false end.

(** The time that passes during a list of events. *)
Fixpoint elapsed (evs : list Event) : N :=
  match evs with
  | [] => 0
  | Advance dt :: evs' => dt + elapsed evs'
  | _ :: evs' => elapsed evs'
  end.

End ConvergenceLoop.

(** ** The scenario of the specification *)

Module Scenario.

Definition node_A : UUID := mkUUID 0xaaaaaaaaaaaa4aaa8aaaaaaaaaaaaaaa.
Definition node_B : UUID := mkUUID 0xbbbbbbbbbbbb4bbb8bbbbbbbbbbbbbbb.

Definition d1 : unicode := "11111111-1111-4111-8111-111111111111".
Definition d2 : unicode := "22222222-2222-4222-8222-222222222222".
Definition d3 : unicode := "33333333-3333-4333-8333-333333333333".
Definition d4 : unicode := "44444444-4444-4444-8444-444444444444".

Definition u1 : UUID := mkUUID 0x11111111111141118111111111111111.
Definition u2 : UUID := mkUUID 0x22222222222242228222222222222222.
Definition u3 : UUID := mkUUID 0x33333333333343338333333333333333.
Definition u4 : UUID := mkUUID 0x44444444444444448444444444444444.

(** A local resource user that references the dataset [d]. *)
Definition user_of (d : unicode) : Application :=
  {| volume := Some {| manifestation := {| dataset_id := d |} |} |}.

(** A candidate for the dataset [d]. *)
Definition candidate (d : unicode) : Manifestation := {| dataset_id := d |}.

(** The lease table: [x] leased to [a], [y] leased to [b]. *)
Definition leases_of (x a y b : UUID) : Leases :=
  <[x := {| node_id := a |}]> (<[y := {| node_id := b |}]> ∅).

(** The constructor of the standard library. *)
Definition stdlib : UUID_constructor := uuid.UUID.

(** The filter of node A: a local user of [d1], [d2] leased to node A and
    [d3] leased to node B. *)
Definition filter_A : NotInUseDatasets :=
  __init__ node_A [user_of d1] (leases_of u2 node_A u3 node_B).

Definition candidates : list Manifestation := candidate <$> [d1; d2; d3; d4].

(** The dataset [d2], written as a URN. *)
Definition d2_urn : unicode := "urn:uuid:22222222-2222-4222-8222-222222222222".

(** One dataset, written in lower case and in upper case. *)
Definition d5_lower : unicode := "5555555a-5555-4555-8555-555555555555".
Definition d5_upper : unicode := "5555555A-5555-4555-8555-555555555555".
Definition u5 : UUID := mkUUID 0x5555555a555545558555555555555555.

(** A filter whose only information is a local user of [d5_lower]. *)
Definition filter_d5 : NotInUseDatasets := __init__ node_A [user_of d5_lower] ∅.

(** A string that is not a UUID, and a filter with a local user of it. *)
Definition not_a_uuid : unicode := "not-a-uuid".
Definition filter_bad : NotInUseDatasets := __init__ node_A [user_of not_a_uuid] ∅.

(** A node state: the identity of the node and the datasets seen on it. *)
Record NodeState : Type := {
  ns_uuid : UUID;
  ns_hostname : unicode;
  ns_datasets : list unicode
}.

Definition state_A : NodeState :=
  {| ns_uuid := node_A; ns_hostname := "192.0.2.1"; ns_datasets := [d1] |}.

(** A deployer that never has anything to do, polling every ten ticks. *)
Definition idle_deployer
    : @IDeployer NodeState () () () () (@NodeLocalState NodeState) :=
  {| node_uuid := node_A;
     hostname := "192.0.2.1";
     poll_interval := 10;
     discover_state := λ ns, {| node_state := ns |};
     calculate_changes := λ _ _ _ _, NoOp |}.

Definition idle_loop
    : @Loop () () () (@NodeLocalState NodeState) :=
  {| now := 100; configuration := (); cluster_state := ();
     phase := Applying (); discoveries := [] |}.

End Scenario.

(** ** What a filter is built from *)

(** Some application of the list has a volume on the dataset [u]: the
    condition of the set comprehension of [__init__]. *)
Definition references (local_applications : list Application) (u : unicode)
    : Prop :=
  ∃ app v, app ∈ local_applications ∧ volume app = Some v ∧
           dataset_id (manifestation v) = u.

(** The leases of a table that are owned by [node]. *)
Definition own_leases (node : UUID) (leases : Leases) : Leases :=
  filter (λ kv, node_id kv.2 = node) leases.

(** The outcome of a call with [g] applied to the list it returns. *)
Definition map_result {A B} (g : A → B) (r : PyResult (list A))
    : PyResult (list B) :=
  match r with
  | inl e => inl e
  | inr result => inr (g <$> result)
  end.

(** The outcome of a call on [xs ++ ys], from the outcomes on [xs] and on
    [ys]: the first exception, or the two lists one after the other. *)
Definition append_results {A} (rx ry : PyResult (list A)) : PyResult (list A) :=
  match rx with
  | inl e => inl e
  | inr x => match ry with
             | inl e => inl e
             | inr y => inr (x ++ y)
             end
  end.

(** * Properties *)

(** ** The usage filter *)

Section UsageFilterProperties.
Context {Obj : Type} {UC : UUID_constructor}.
Implicit Types (f : NotInUseDatasets) (get : Obj → unicode).
Implicit Types (obj : Obj) (objs result : list Obj) (σ : Store Obj).

(** The identifier of [obj] is accepted by the [UUID] constructor. *)
Local Abbreviation parses get := (λ obj, returned (UUID_of (get obj))).

(** *** The loop, step by step *)

Lemma loop_body_raises get obj result σ e :
  UUID_of (get obj) = inl e →
  loop_body get obj result σ = (inl e, σ).
Proof. intros E. unfold loop_body, mbind, M_bind, lift. by rewrite E. Qed.

Lemma loop_body_returns get obj result σ d :
  UUID_of (get obj) = inr d →
  loop_body get obj result σ =
    (inr (if decide (in_use (self σ) get obj) then result else result ++ [obj]), σ).
Proof.
  intros E. unfold loop_body, mbind, M_bind, lift, gets, mret, M_ret.
  rewrite E. cbn.
  case_bool_decide as Hu.
  { rewrite decide_True; [done | by left]. }
  destruct (_leases (self σ) !! d) as [lease|] eqn:El; cbn.
  - case_bool_decide as Hn.
    + rewrite decide_True; [done|]. right. exists d. split; [done|]. by exists lease.
    + rewrite decide_False; [done|].
      intros [?|(d' & Hd & l & Hl & Hl')]; [done|]. congruence.
  - rewrite decide_False; [done|].
    intros [?|(d' & Hd & l & Hl & Hl')]; [done|]. congruence.
Qed.

Lemma for_each_spec get objs result σ :
  for_each get objs result σ =
    (match first_failure get objs with
     | Some e => inl e
     | None => inr (result ++ filter (λ obj, ¬ in_use (self σ) get obj) objs)
     end, σ).
Proof.
  revert result.
  induction objs as [|obj objs IH]; intros result; cbn [for_each first_failure].
  - by rewrite filter_nil, app_nil_r.
  - unfold mbind, M_bind.
    destruct (UUID_of (get obj)) as [e|d] eqn:E.
    + by rewrite (loop_body_raises _ _ _ _ e).
    + rewrite (loop_body_returns _ _ _ _ d) by done.
      rewrite IH. rewrite filter_cons.
      destruct (decide (in_use (self σ) get obj)) as [Hi|Hi].
      * rewrite decide_False; [done | tauto].
      * rewrite decide_True by done.
        destruct (first_failure get objs); [done|]. by rewrite <-app_assoc.
Qed.

Lemma __call___spec get σ :
  __call__ get σ =
    (match first_failure get (objects σ) with
     | Some e => inl e
     | None => inr (filter (λ obj, ¬ in_use (self σ) get obj) (objects σ))
     end, σ).
Proof. unfold __call__, mbind, M_bind, gets. by rewrite for_each_spec. Qed.

Lemma call_spec f objs get :
  call f objs get =
    match first_failure get objs with
    | Some e => inl e
    | None => inr (filter (λ obj, ¬ in_use f get obj) objs)
    end.
Proof. unfold call. by rewrite __call___spec. Qed.

Lemma first_failure_None get objs :
  first_failure get objs = None ↔ Forall (parses get) objs.
Proof.
  induction objs as [|obj objs IH]; cbn.
  - split; [constructor | done].
  - rewrite Forall_cons. destruct (UUID_of (get obj)) as [e|d] eqn:E.
    + split; [done | intros [[d Hd] _]; discriminate].
    + rewrite IH. split; [intros ?; split; [by exists d | done] | tauto].
Qed.

Lemma first_failure_Some get objs e :
  first_failure get objs = Some e ↔
  ∃ pre obj post, objs = pre ++ obj :: post ∧ Forall (parses get) pre ∧
                  UUID_of (get obj) = inl e.
Proof.
  induction objs as [|obj objs IH]; cbn.
  - split; [done | intros ([|??] & ? & ? & ? & _); discriminate].
  - destruct (UUID_of (get obj)) as [e'|d] eqn:E.
    + split.
      * intros [= ->]. by exists [], obj, objs.
      * intros ([|o pre] & obj' & post & Heq & Hpre & Hobj);
          injection Heq as <- _; [congruence|].
        apply Forall_cons in Hpre as [[d Hd] _]. congruence.
    + rewrite IH. split.
      * intros (pre & obj' & post & -> & Hpre & Hobj).
        exists (obj :: pre), obj', post. repeat split; [|done].
        constructor; [by exists d | done].
      * intros ([|o pre] & obj' & post & Heq & Hpre & Hobj);
          injection Heq as <- ->; [congruence|].
        apply Forall_cons in Hpre as [_ Hpre]. by exists pre, obj', post.
Qed.

Lemma call_returns f objs get result :
  call f objs get = inr result ↔
  Forall (parses get) objs ∧ result = filter (λ obj, ¬ in_use f get obj) objs.
Proof.
  rewrite call_spec, <-first_failure_None.
  destruct (first_failure get objs) as [e|].
  - split; [done | intros [[=] _]].
  - split; [intros [= <-]; by split | by intros [_ ->]].
Qed.

(** C1.  When the identifiers of all the candidates parse, the call
    returns the candidates that are not in use, in their order: a candidate
    is left out exactly when its identifier is in the locally-used set or
    has a lease owned by the node of the filter, and one that is leased
    by another node and not used locally is kept. *)
Theorem call_excludes_exactly_in_use f objs get :
  Forall (parses get) objs →
  ∃ result,
    call f objs get = inr result ∧
    result = filter (λ obj, ¬ in_use f get obj) objs ∧
    result `sublist_of` objs ∧
    (∀ obj, obj ∈ result ↔ obj ∈ objs ∧ ¬ in_use f get obj) ∧
    (∀ obj d lease,
       obj ∈ objs → get obj ∉ _in_use_datasets f →
       UUID_of (get obj) = inr d → _leases f !! d = Some lease →
       node_id lease ≠ _node_id f → obj ∈ result).
Proof.
  intros Hall. eexists. split; [by apply call_returns|].
  split; [done|]. split; [apply sublist_filter|]. split.
  - intros obj. rewrite list_elem_of_filter. tauto.
  - intros obj d lease Hin Hlocal Hd Hl Hother.
    apply list_elem_of_filter. split; [|done].
    intros [?|(d' & Hd' & lease' & Hl' & Hhere)]; [done|]. congruence.
Qed.

(** C3.  A candidate whose identifier the [UUID] constructor refuses makes
    the call raise, whatever else the collection holds: the exception is
    that of a candidate of the collection, and no list is returned. *)
Theorem call_raises_on_unparsable_identifier f objs get obj e :
  obj ∈ objs → UUID_of (get obj) = inl e →
  ∃ e' obj', call f objs get = inl e' ∧
             obj' ∈ objs ∧ UUID_of (get obj') = inl e'.
Proof.
  intros Hin He. rewrite call_spec.
  destruct (first_failure get objs) as [e'|] eqn:Hf.
  - apply first_failure_Some in Hf as (pre & obj' & post & -> & _ & He').
    exists e', obj'. repeat split; [|done].
    apply elem_of_app. right. by left.
  - apply first_failure_None in Hf.
    rewrite Forall_forall in Hf. destruct (Hf obj Hin) as [d Hd]. congruence.
Qed.

(** C10.  The identifier is parsed before any exclusion check: at the
    first candidate whose identifier does not parse, the call raises the
    exception of the constructor and leaves the store as it was, whether
    or not that identifier is in the locally-used set and whatever the
    candidates before it added to the result. *)
Theorem call_raises_before_any_check get σ pre obj post e :
  objects σ = pre ++ obj :: post →
  Forall (parses get) pre → UUID_of (get obj) = inl e →
  __call__ get σ = (inl e, σ) ∧
  ¬ returned (call (self σ) (objects σ) get) ∧
  ∀ result, loop_body get obj result σ = (inl e, σ).
Proof.
  intros Hobjs Hpre He.
  assert (first_failure get (objects σ) = Some e) as Hf.
  { apply first_failure_Some. by exists pre, obj, post. }
  split; [by rewrite __call___spec, Hf|]. split.
  - rewrite call_spec, Hf. intros [r ?]. discriminate.
  - intros result. by apply loop_body_raises.
Qed.

(** C6.  Filtering the result of a call again returns that result. *)
Theorem call_idempotent f objs get result :
  call f objs get = inr result → call f result get = inr result.
Proof.
  rewrite !call_returns. intros [Hall ->]. split.
  - rewrite Forall_forall in *. intros obj Hin.
    apply list_elem_of_filter in Hin as [_ Hin]. by apply Hall.
  - rewrite list_filter_filter. apply list_filter_iff. tauto.
Qed.

(** C5, as the code has it.  The locally-used set is searched for the
    identifier string as extracted, the lease table for the parsed [UUID]:
    two candidates whose identifiers parse to the same [UUID] and are both
    in, or both out of, the locally-used set (as two candidates with the
    same identifier string are) are both kept or both left out. *)
Theorem call_decides_by_string_and_uuid f objs get result o1 o2 d :
  call f objs get = inr result →
  o1 ∈ objs → o2 ∈ objs →
  UUID_of (get o1) = inr d → UUID_of (get o2) = inr d →
  (get o1 ∈ _in_use_datasets f ↔ get o2 ∈ _in_use_datasets f) →
  (o1 ∈ result ↔ o2 ∈ result).
Proof.
  intros [_ ->]%call_returns Hin1 Hin2 Hd1 Hd2 Hlocal.
  assert (in_use f get o1 ↔ in_use f get o2) as Hiff.
  { unfold in_use. rewrite Hd1, Hd2. tauto. }
  rewrite !list_elem_of_filter. tauto.
Qed.

(** C8.  The constructor computes the locally-used set from the
    applications that have a volume; a call returns the store (the
    instance and the candidate list) as it received it, so that any number
    of calls in a row return the same value. *)
Theorem call_leaves_store_unchanged get :
  (∀ node_uuid local_applications leases,
     let f := __init__ node_uuid local_applications leases in
     _node_id f = node_uuid ∧ _leases f = leases ∧
     ∀ u, u ∈ _in_use_datasets f ↔
          ∃ app v, app ∈ local_applications ∧ volume app = Some v ∧
                   dataset_id (manifestation v) = u) ∧
  (∀ σ, (__call__ get σ).2 = σ) ∧
  (∀ n σ, repeat_call get n σ = (replicate n (__call__ get σ).1, σ)).
Proof.
  split; [|split].
  - intros node_uuid apps leases f. split; [done|]. split; [done|].
    intros u. unfold f, __init__; cbn. rewrite elem_of_list_to_set, list_elem_of_omap.
    split.
    + intros (app & Hin & Hv). destruct (volume app) as [v|] eqn:E; [|done].
      exists app, v. by simplify_eq.
    + intros (app & v & Hin & Hv & Hu). exists app. by rewrite Hv, Hu.
  - intros σ. by rewrite __call___spec.
  - intros n σ. induction n as [|n IH]; [done|]. cbn [repeat_call replicate].
    rewrite __call___spec at 1. rewrite IH. by rewrite __call___spec.
Qed.

End UsageFilterProperties.

(** ** The scenario of the specification *)

Section ScenarioProperties.
Context {UC : UUID_constructor}.
Import Scenario.

(** C2.  The filter of node A, with one local user of [d1] and the leases
    [d2] to node A and [d3] to node B, returns [[d3; d4]] for the
    candidates [[d1; d2; d3; d4]], for any four identifiers that parse to
    different UUIDs and any two different nodes. *)
Theorem scenario_returns_d3_d4 (A B : UUID) (d1 d2 d3 d4 : unicode)
    (u1 u2 u3 u4 : UUID) :
  UUID_of d1 = inr u1 → UUID_of d2 = inr u2 →
  UUID_of d3 = inr u3 → UUID_of d4 = inr u4 →
  NoDup [u1; u2; u3; u4] → A ≠ B →
  call (__init__ A [user_of d1] (leases_of u2 A u3 B))
       (candidate <$> [d1; d2; d3; d4]) default_get_dataset_id
  = inr (candidate <$> [d3; d4]).
Proof.
  intros H1 H2 H3 H4 Hnd HAB.
  apply NoDup_cons in Hnd as [Hn1 Hnd]. apply NoDup_cons in Hnd as [Hn2 Hnd].
  apply NoDup_cons in Hnd as [Hn3 _].
  apply not_elem_of_cons in Hn1 as [_ Hn1].
  apply not_elem_of_cons in Hn1 as [N13 Hn1].
  apply not_elem_of_cons in Hn1 as [N14 _].
  apply not_elem_of_cons in Hn2 as [N23 Hn2].
  apply not_elem_of_cons in Hn2 as [N24 _].
  apply not_elem_of_cons in Hn3 as [N34 _].
  apply call_returns. split.
  { repeat constructor; cbn; eexists; eauto. }
  set (f := __init__ A [user_of d1] (leases_of u2 A u3 B)).
  assert (∀ d, d ∈ _in_use_datasets f ↔ d = d1) as Hlocal.
  { intros d. unfold f, __init__; cbn.
    rewrite elem_of_union, elem_of_singleton, elem_of_empty. tauto. }
  assert (in_use f default_get_dataset_id (candidate d1)) as I1.
  { left. by apply Hlocal. }
  assert (in_use f default_get_dataset_id (candidate d2)) as I2.
  { right. exists u2. split; [done|]. exists {| node_id := A |}.
    split; [|done]. unfold f, leases_of; cbn. by rewrite lookup_insert_eq. }
  assert (¬ in_use f default_get_dataset_id (candidate d3)) as I3.
  { intros [Hl%Hlocal|(d & Hd & l & Hl & Hn)]; cbn in *.
    - congruence.
    - assert (d = u3) as -> by congruence.
      unfold f, leases_of in Hl; cbn in Hl.
      rewrite lookup_insert_ne, lookup_insert_eq in Hl by done.
      injection Hl as <-. cbn in Hn. by apply HAB. }
  assert (¬ in_use f default_get_dataset_id (candidate d4)) as I4.
  { intros [Hl%Hlocal|(d & Hd & l & Hl & Hn)]; cbn in *.
    - congruence.
    - assert (d = u4) as -> by congruence.
      unfold f, leases_of in Hl; cbn in Hl.
      rewrite !lookup_insert_ne, lookup_empty in Hl by done. done. }
  cbn [fmap list_fmap].
  rewrite (filter_cons_False _ (candidate d1)) by tauto.
  rewrite (filter_cons_False _ (candidate d2)) by tauto.
  rewrite (filter_cons_True _ (candidate d3)) by done.
  rewrite (filter_cons_True _ (candidate d4)) by done.
  done.
Qed.

End ScenarioProperties.

(** ** [NodeLocalState] *)

Section NodeLocalStateProperties.
Context {NodeState : Type}.
Implicit Types (o : NodeLocalState NodeState) (x : positive).
Implicit Types (h : gmap positive (NodeLocalState NodeState)).

(** C4.  An instance constructed from a node state shares exactly that
    node state: [shared_state_changes()] is the one-element tuple of it. *)
Theorem shared_state_changes_is_node_state (kw : option NodeState) o :
  NodeLocalState_new kw = inr o →
  ∃ ns, kw = Some ns ∧ node_state o = ns ∧
        shared_state_changes o = [ns] ∧
        length (shared_state_changes (IClusterStateChange := NodeState) o) = 1.
Proof.
  destruct kw as [ns|]; cbn; [|done]. intros [= <-]. by exists ns.
Qed.

Lemma keeps_ret {A} (a : A) x o : keeps x o (mret a).
Proof. by intros h Hx. Qed.

Lemma keeps_lift {A} (r : PyResult A) x o : keeps x o (lift r).
Proof. by intros h Hx. Qed.

Lemma keeps_bind {A B} (m : M (gmap positive (NodeLocalState NodeState)) A)
    (k : A → M _ B) x o :
  keeps x o m → (∀ a, keeps x o (k a)) → keeps x o (m ≫= k).
Proof.
  intros Hm Hk h Hx. unfold mbind, M_bind. specialize (Hm h Hx).
  destruct (m h) as [[e|a] h']; cbn in *; [done|]. by apply Hk.
Qed.

Lemma keeps_alloc (o' : NodeLocalState NodeState) x o : keeps x o (alloc o').
Proof.
  intros h Hx. unfold alloc; cbn. rewrite lookup_insert_ne; [done|].
  intros Heq. apply (is_fresh (dom h)). rewrite Heq.
  apply elem_of_dom. by exists o.
Qed.

Lemma keeps_deref x' x o :
  keeps x o (deref (NodeState := NodeState) x').
Proof. intros h Hx. unfold deref. by destruct (h !! x'). Qed.

Lemma keeps_construct (kw : option NodeState) x o : keeps x o (construct kw).
Proof.
  apply keeps_bind; [apply keeps_lift|]. intros o'. apply keeps_alloc.
Qed.

Lemma keeps_call_shared_state_changes x' x o :
  keeps x o (call_shared_state_changes (NodeState := NodeState) x').
Proof.
  apply keeps_bind; [apply keeps_deref|]. intros self. apply keeps_ret.
Qed.

(** The modelled operations of [PClass] keep every instance. *)
Lemma pclass_exec_keeps (op : PClassOp NodeState) x' x o :
  keeps x o (pclass_exec op x').
Proof.
  destruct op as [|v| |v]; cbn [pclass_exec].
  - apply keeps_bind; [apply keeps_deref|]. intros self. apply keeps_ret.
  - apply keeps_bind; [apply keeps_deref|]. intros _. apply keeps_lift.
  - apply keeps_bind; [apply keeps_deref|]. intros _. apply keeps_lift.
  - apply keeps_bind; [apply keeps_deref|]. intros _.
    apply keeps_bind; [apply keeps_construct|]. intros x''. apply keeps_ret.
Qed.

Section Programs.
Context {PClassOp : Type}.
Variable inherited :
  PClassOp → positive →
  M (gmap positive (NodeLocalState NodeState)) (Value NodeState).

Lemma exec_keeps (s : Stmt NodeState PClassOp) x o :
  (∀ op x', keeps x o (inherited op x')) →
  keeps x o (exec inherited s).
Proof.
  intros Hinherited. destruct s as [kw|x'|op x']; cbn [exec].
  - apply keeps_bind; [apply keeps_construct|]. intros ?. apply keeps_ret.
  - apply keeps_bind; [apply keeps_call_shared_state_changes|].
    intros ?. apply keeps_ret.
  - apply Hinherited.
Qed.


End Programs.

End NodeLocalStateProperties.

(** ** The convergence loop *)

Section ConvergenceLoopProperties.
Context {NodeState Deployment DeploymentState Registry StateChange : Type}.
Context {LocalState : Type} `{!ILocalState NodeState LocalState}.
Variable registry : Registry.
Variable node_state_of : UUID → DeploymentState → NodeState.
Variable update_cluster_state : NodeState → DeploymentState → DeploymentState.

Local Abbreviation Deployer :=
  (@IDeployer NodeState Deployment DeploymentState Registry StateChange LocalState).
Local Abbreviation step' := (step registry node_state_of update_cluster_state).
Local Abbreviation run' := (run registry node_state_of update_cluster_state).
Local Abbreviation iterate' := (iterate registry node_state_of update_cluster_state).
Local Abbreviation calculated' := (calculated registry node_state_of update_cluster_state).

Implicit Types (d : Deployer) (l : @Loop Deployment DeploymentState StateChange LocalState).
Implicit Types (evs : list (@Event Deployment DeploymentState)).

(** An iteration that calculates [NoOp] puts the driver to sleep for
    [poll_interval]. *)
Lemma iterate_noop_sleeps d l :
  calculated' d l = NoOp →
  phase (iterate' d l) =
    Sleeping (now l + poll_interval d)
      (discovered node_state_of d l) ∧
  now (iterate' d l) = now l.
Proof. intros Hc. unfold iterate; cbn. by rewrite Hc. Qed.

(** A sleeping driver stays asleep, and discovers nothing, while no push
    arrives and the clock stays before the time to wake. *)
Lemma sleeping_undisturbed d evs : ∀ l wake_at local_state,
  phase l = Sleeping wake_at local_state →
  Forall (λ ev, is_push ev = false) evs →
  (now l + elapsed evs < wake_at)%N →
  discoveries (run' d evs l) = discoveries l ∧
  phase (run' d evs l) = Sleeping wake_at local_state ∧
  now (run' d evs l) = (now l + elapsed evs)%N.
Proof.
  induction evs as [|ev evs IH]; intros l wake_at ls Hph Hnp Ht.
  { cbn. by rewrite N.add_0_r. }
  apply Forall_cons in Hnp as [Hev Hnp].
  unfold run in *. cbn [foldl].
  destruct ev as [dt|c s| |]; cbn in Hev; [|done| |].
  - cbn [elapsed] in Ht.
    assert (step' d l (Advance dt) = set_now (now l + dt) l) as ->.
    { unfold step. rewrite Hph. cbn.
      destruct (N.leb_spec wake_at (now l + dt)); [lia | done]. }
    destruct (IH (set_now (now l + dt) l) wake_at ls) as (? & ? & ?);
      [done | done | cbn; lia |].
    cbn in *. repeat split; [done | done | lia].
  - assert (step' d l LocalTimer = l) as ->.
    { unfold step. by rewrite Hph. }
    by apply IH.
  - assert (step' d l Applied = l) as ->.
    { unfold step. by rewrite Hph. }
    by apply IH.
Qed.

(** When the interval has passed, the sleep ends with a discovery. *)
Lemma sleep_ends_after_poll_interval d l :
  calculated' d l = NoOp →
  discoveries (step' d (iterate' d l) (Advance (poll_interval d))) =
    (now l + poll_interval d)%N :: now l :: discoveries l.
Proof.
  intros Hc. unfold step.
  destruct (iterate_noop_sleeps d l Hc) as [-> Hnow]. cbn.
  rewrite N.leb_refl. done.
Qed.

(** C9.  After [calculate_changes] has returned [NoOp], [discover_state]
    is not called again while no push arrives and less than
    [poll_interval] has passed on the clock; local timers and other events
    change nothing. *)
Theorem noop_idle_law d l evs :
  calculated' d l = NoOp →
  Forall (λ ev, is_push ev = false) evs →
  (elapsed evs < poll_interval d)%N →
  discoveries (run' d evs (iterate' d l)) = discoveries (iterate' d l) ∧
  phase (run' d evs (iterate' d l)) = phase (iterate' d l).
Proof.
  intros Hc Hnp Ht.
  destruct (iterate_noop_sleeps d l Hc) as [Hph Hnow].
  destruct (sleeping_undisturbed d evs (iterate' d l) _ _ Hph Hnp) as (? & ? & _).
  { rewrite Hnow. lia. }
  split; [done | congruence].
Qed.

End ConvergenceLoopProperties.

(** ** The properties on the scenario *)

Module ScenarioFacts.
Import Scenario.

(** The identifiers of the scenario parse to the UUIDs of the scenario. *)
Lemma identifiers_parse :
  uuid.UUID d1 = inr u1 ∧ uuid.UUID d2 = inr u2 ∧
  uuid.UUID d3 = inr u3 ∧ uuid.UUID d4 = inr u4 ∧
  uuid.UUID d2_urn = inr u2 ∧
  uuid.UUID d5_lower = inr u5 ∧ uuid.UUID d5_upper = inr u5.
Proof. by vm_compute. Qed.

Lemma not_a_uuid_is_refused :
  uuid.UUID not_a_uuid = inl (ValueError "badly formed hexadecimal UUID string").
Proof. by vm_compute. Qed.

Lemma call_excludes_exactly_in_use_witness :
  Forall (λ obj, returned (uuid.UUID (default_get_dataset_id obj))) candidates ∧
  ∃ result,
    call (UC := stdlib) filter_A candidates default_get_dataset_id = inr result ∧
    result = filter (λ obj, ¬ in_use (UC := stdlib) filter_A default_get_dataset_id obj)
                    candidates ∧
    result `sublist_of` candidates ∧
    (∀ obj, obj ∈ result ↔
            obj ∈ candidates ∧
            ¬ in_use (UC := stdlib) filter_A default_get_dataset_id obj) ∧
    (∀ obj d lease,
       obj ∈ candidates →
       default_get_dataset_id obj ∉ _in_use_datasets filter_A →
       uuid.UUID (default_get_dataset_id obj) = inr d →
       _leases filter_A !! d = Some lease →
       node_id lease ≠ _node_id filter_A → obj ∈ result).
Proof.
  assert (Forall (λ obj, returned (uuid.UUID (default_get_dataset_id obj)))
                 candidates) as Hall.
  { repeat constructor; vm_compute; by eexists. }
  split; [exact Hall|].
  exact (call_excludes_exactly_in_use (UC := stdlib) filter_A candidates
           default_get_dataset_id Hall).
Defined.

Lemma scenario_returns_d3_d4_witness :
  call (UC := stdlib) filter_A candidates default_get_dataset_id
  = inr [candidate d3; candidate d4].
Proof.
  apply (scenario_returns_d3_d4 (UC := stdlib) node_A node_B d1 d2 d3 d4 u1 u2 u3 u4).
  - by vm_compute.
  - by vm_compute.
  - by vm_compute.
  - by vm_compute.
  - compute_done.
  - compute_done.
Defined.

Lemma call_raises_on_unparsable_identifier_witness :
  candidate not_a_uuid ∈ [candidate d4; candidate not_a_uuid] ∧
  ∃ e' obj',
    call (UC := stdlib) filter_A [candidate d4; candidate not_a_uuid]
         default_get_dataset_id = inl e' ∧
    obj' ∈ [candidate d4; candidate not_a_uuid] ∧
    uuid.UUID (default_get_dataset_id obj') = inl e'.
Proof.
  assert (candidate not_a_uuid ∈ [candidate d4; candidate not_a_uuid]) as Hin.
  { compute_done. }
  split; [exact Hin|].
  apply (call_raises_on_unparsable_identifier (UC := stdlib) filter_A _
           default_get_dataset_id (candidate not_a_uuid)
           (ValueError "badly formed hexadecimal UUID string") Hin).
  by vm_compute.
Defined.

(** The candidate [d4] passes the filter, [not_a_uuid] is in the
    locally-used set of [filter_bad], and still the call raises. *)
Lemma call_raises_before_any_check_witness :
  let σ := {| self := filter_bad;
              objects := [candidate d4; candidate not_a_uuid; candidate d3] |} in
  let e := ValueError "badly formed hexadecimal UUID string" in
  not_a_uuid ∈ _in_use_datasets filter_bad ∧
  call (UC := stdlib) filter_bad [candidate d4] default_get_dataset_id
    = inr [candidate d4] ∧
  __call__ (UC := stdlib) default_get_dataset_id σ = (inl e, σ) ∧
  ¬ returned (call (UC := stdlib) (self σ) (objects σ) default_get_dataset_id) ∧
  ∀ result,
    loop_body (UC := stdlib) default_get_dataset_id (candidate not_a_uuid) result σ
    = (inl e, σ).
Proof.
  intros σ e.
  split; [compute_done|].
  split; [by vm_compute|].
  apply (call_raises_before_any_check (UC := stdlib) default_get_dataset_id σ
           [candidate d4] (candidate not_a_uuid) [candidate d3] e).
  - reflexivity.
  - repeat constructor. vm_compute. by eexists.
  - by vm_compute.
Defined.

Lemma call_idempotent_witness :
  call (UC := stdlib) filter_A candidates default_get_dataset_id
    = inr [candidate d3; candidate d4] ∧
  call (UC := stdlib) filter_A [candidate d3; candidate d4] default_get_dataset_id
    = inr [candidate d3; candidate d4].
Proof.
  assert (call (UC := stdlib) filter_A candidates default_get_dataset_id
          = inr [candidate d3; candidate d4]) as Hcall by (by vm_compute).
  split; [exact Hcall|].
  exact (call_idempotent (UC := stdlib) filter_A candidates
           default_get_dataset_id _ Hcall).
Defined.

(** C5, as the specification states it, fails: [d5_lower] and [d5_upper]
    parse to the same UUID, and for a filter whose locally-used set holds
    [d5_lower] the first candidate is left out and the second is kept. *)
Lemma same_uuid_not_treated_alike :
  uuid.UUID d5_lower = inr u5 ∧ uuid.UUID d5_upper = inr u5 ∧
  _in_use_datasets filter_d5 = {[ d5_lower ]} ∧
  call (UC := stdlib) filter_d5 [candidate d5_lower; candidate d5_upper]
       default_get_dataset_id
  = inr [candidate d5_upper].
Proof.
  split; [by vm_compute|]. split; [by vm_compute|].
  split; [|by vm_compute].
  unfold filter_d5, __init__; cbn. apply union_empty_r_L.
Qed.

(** [d2] and its URN form are both out of the locally-used set and parse
    to the same UUID, which is leased to node A: both are left out. *)
Lemma call_decides_by_string_and_uuid_witness :
  let objs := [candidate d2; candidate d2_urn; candidate d4] in
  call (UC := stdlib) filter_A objs default_get_dataset_id = inr [candidate d4] ∧
  (candidate d2 ∈ [candidate d4] ↔ candidate d2_urn ∈ [candidate d4]).
Proof.
  intros objs.
  assert (call (UC := stdlib) filter_A objs default_get_dataset_id
          = inr [candidate d4]) as Hcall by (by vm_compute).
  split; [exact Hcall|].
  apply (call_decides_by_string_and_uuid (UC := stdlib) filter_A objs
           default_get_dataset_id [candidate d4]
           (candidate d2) (candidate d2_urn) u2 Hcall).
  - compute_done.
  - compute_done.
  - by vm_compute.
  - by vm_compute.
  - compute_done.
Defined.

Lemma shared_state_changes_is_node_state_witness :
  ∃ ns, Some state_A = Some ns ∧
        node_state {| node_state := state_A |} = ns ∧
        shared_state_changes {| node_state := state_A |} = [ns] ∧
        length (shared_state_changes (IClusterStateChange := NodeState)
                  {| node_state := state_A |}) = 1.
Proof.
  apply (shared_state_changes_is_node_state (Some state_A)
           {| node_state := state_A |}).
  reflexivity.
Defined.


(** Nine ticks and two local timers after a no-op, with a poll interval
    of ten ticks, nothing more has been discovered. *)
Lemma noop_idle_law_witness :
  let evs := [Advance 3; LocalTimer; Advance 6; LocalTimer] in
  let asleep := iterate () (λ _ _, state_A) (λ _ _, ()) idle_deployer idle_loop in
  discoveries (run () (λ _ _, state_A) (λ _ _, ()) idle_deployer evs asleep)
    = discoveries asleep ∧
  phase (run () (λ _ _, state_A) (λ _ _, ()) idle_deployer evs asleep)
    = phase asleep.
Proof.
  intros evs asleep.
  apply (noop_idle_law () (λ _ _, state_A) (λ _ _, ()) idle_deployer idle_loop evs).
  - reflexivity.
  - repeat constructor.
  - by vm_compute.
Defined.

End ScenarioFacts.

(** ** How calls and filters compose *)

Section UsageFilterComposition.
Context {Obj : Type} {UC : UUID_constructor}.
Implicit Types (f : NotInUseDatasets) (get : Obj → unicode).
Implicit Types (obj : Obj) (objs xs ys result : list Obj).
Implicit Types (apps : list Application) (leases : Leases) (node d : UUID).

Local Abbreviation parses get := (λ obj, returned (UUID_of (get obj))).

Lemma first_failure_app get xs ys :
  first_failure get (xs ++ ys) =
    match first_failure get xs with
    | Some e => Some e
    | None => first_failure get ys
    end.
Proof.
  induction xs as [|obj xs IH]; cbn; [done|].
  by destruct (UUID_of (get obj)).
Qed.

(** Two filters that agree on what is in use return the same. *)
Lemma call_ext f f' objs get :
  (∀ obj, in_use f get obj ↔ in_use f' get obj) →
  call f objs get = call f' objs get.
Proof.
  intros Hiff. rewrite !call_spec. destruct (first_failure get objs); [done|].
  f_equal. apply list_filter_iff. intros obj. by rewrite Hiff.
Qed.

Lemma references_spec apps u :
  references apps u ↔ u ∈ _in_use_datasets (__init__ (mkUUID 0) apps ∅).
Proof.
  unfold references, __init__; cbn.
  rewrite elem_of_list_to_set, list_elem_of_omap. split.
  - intros (app & v & Hin & Hv & Hu). exists app. by rewrite Hv, Hu.
  - intros (app & Hin & Hv). destruct (volume app) as [v|] eqn:E; [|done].
    exists app, v. by simplify_eq.
Qed.

(** What is in use for a filter, in terms of what it was built from. *)
Lemma in_use_init node apps leases get obj :
  in_use (__init__ node apps leases) get obj ↔
  references apps (get obj) ∨
  ∃ d lease, UUID_of (get obj) = inr d ∧ leases !! d = Some lease ∧
             node_id lease = node.
Proof.
  rewrite references_spec. unfold in_use, leased_here; cbn. split.
  - intros [?|(d & Hd & lease & Hl & Hn)]; [by left|].
    right. by exists d, lease.
  - intros [?|(d & lease & Hd & Hl & Hn)]; [by left|].
    right. exists d. split; [done|]. by exists lease.
Qed.

Lemma filter_id_iff (P : Obj → Prop) `{!∀ x, Decision (P x)} objs :
  filter P objs = objs ↔ Forall P objs.
Proof.
  induction objs as [|obj objs IH]; [by split; [constructor|]|].
  rewrite Forall_cons, filter_cons. destruct (decide (P obj)) as [HP|HP].
  - rewrite <-IH. split; [intros [= ?]; by split | intros [_ ->]; done].
  - split; [|tauto]. intros Heq.
    pose proof (length_filter P objs) as Hlen. rewrite Heq in Hlen.
    cbn in Hlen. lia.
Qed.

Lemma filter_nil_iff (P : Obj → Prop) `{!∀ x, Decision (P x)} objs :
  filter P objs = [] ↔ Forall (λ obj, ¬ P obj) objs.
Proof.
  induction objs as [|obj objs IH]; [by split; [constructor|]|].
  rewrite Forall_cons, filter_cons. destruct (decide (P obj)) as [HP|HP].
  - split; [done | tauto].
  - rewrite IH. tauto.
Qed.

(** The call on a concatenation is made of the calls on the parts: it
    raises the first exception of the two, and otherwise returns the two
    results one after the other. *)
Theorem call_app f xs ys get :
  call f (xs ++ ys) get = append_results (call f xs get) (call f ys get).
Proof.
  rewrite !call_spec, first_failure_app. unfold append_results.
  destruct (first_failure get xs); [done|].
  destruct (first_failure get ys); [done|]. by rewrite filter_app.
Qed.

(** Candidates removed by any other test before the call are removed from
    its result, when the call on all of them returns. *)
Theorem call_filter_commute (P : Obj → Prop) `{!∀ x, Decision (P x)}
    f objs get result :
  call f objs get = inr result →
  call f (filter P objs) get = inr (filter P result).
Proof.
  rewrite !call_returns. intros [Hall ->]. split.
  - rewrite Forall_forall in *. intros obj [_ Hin]%list_elem_of_filter.
    by apply Hall.
  - rewrite !list_filter_filter. apply list_filter_iff. tauto.
Qed.

(** The call returns its input unchanged exactly when every identifier
    parses and no candidate is in use, and returns the empty list exactly
    when every identifier parses and every candidate is in use. *)
Theorem call_returns_all_or_nothing f objs get :
  (call f objs get = inr objs ↔
   Forall (λ obj, returned (UUID_of (get obj)) ∧ ¬ in_use f get obj) objs) ∧
  (call f objs get = inr [] ↔
   Forall (λ obj, returned (UUID_of (get obj)) ∧ in_use f get obj) objs).
Proof.
  rewrite !call_returns, !Forall_and. split.
  - split; intros [Hall Hf]; (split; [done|]).
    + symmetry in Hf. by apply filter_id_iff in Hf.
    + symmetry. by apply filter_id_iff.
  - split; intros [Hall Hf]; (split; [done|]).
    + symmetry in Hf. apply filter_nil_iff in Hf.
      eapply Forall_impl; [exact Hf|]. intros obj Hn. cbn in Hn.
      by destruct (decide (in_use f get obj)).
    + symmetry. apply filter_nil_iff.
      eapply Forall_impl; [exact Hf|]. intros obj Hi. cbn. tauto.
Qed.

(** Two filters commute: filtering with one what the other returned gives
    the same list in either order. *)
Theorem call_commute f f' objs get r r' :
  call f objs get = inr r → call f' objs get = inr r' →
  ∃ both, call f' r get = inr both ∧ call f r' get = inr both.
Proof.
  rewrite !call_returns. intros [Hall ->] [_ ->].
  exists (filter (λ obj, ¬ in_use f' get obj)
            (filter (λ obj, ¬ in_use f get obj) objs)).
  rewrite !call_returns. split; split; try done.
  - rewrite Forall_forall in *. intros obj [_ Hin]%list_elem_of_filter.
    by apply Hall.
  - rewrite Forall_forall in *. intros obj [_ Hin]%list_elem_of_filter.
    by apply Hall.
  - rewrite !list_filter_filter. apply list_filter_iff. tauto.
Qed.

(** A filter built from applications depends on them only through the
    datasets they reference: the order of the applications, repetitions
    and applications without a volume change nothing. *)
Theorem init_same_references node apps apps' leases :
  (∀ u, references apps u ↔ references apps' u) →
  __init__ node apps leases = __init__ node apps' leases.
Proof.
  intros Hiff.
  assert (_in_use_datasets (__init__ node apps leases)
          = _in_use_datasets (__init__ node apps' leases)) as Heq.
  { apply set_eq. intros u.
    pose proof (references_spec apps u) as H1.
    pose proof (references_spec apps' u) as H2.
    cbn in *. rewrite <-H1, <-H2. apply Hiff. }
  unfold __init__ in *; cbn in *. by rewrite Heq.
Qed.

(** The leases owned by other nodes have no effect on a call. *)
Theorem call_ignores_leases_of_other_nodes node apps leases objs get :
  call (__init__ node apps (own_leases node leases)) objs get
  = call (__init__ node apps leases) objs get.
Proof.
  apply call_ext. intros obj. rewrite !in_use_init.
  split; (intros [?|(d & lease & Hd & Hl & Hn)]; [by left|]);
    right; exists d, lease; (split; [done|]); (split; [|done]).
  - unfold own_leases in Hl. by apply map_lookup_filter_Some in Hl as [? _].
  - unfold own_leases. by apply map_lookup_filter_Some.
Qed.

(** A lease given to another node has the effect of a lease released. *)
Theorem call_lease_moved_is_lease_released node other apps leases d objs get :
  other ≠ node →
  call (__init__ node apps (<[d := {| node_id := other |}]> leases)) objs get
  = call (__init__ node apps (delete d leases)) objs get.
Proof.
  intros Hother. apply call_ext. intros obj. rewrite !in_use_init.
  split; (intros [?|(d' & lease & Hd & Hl & Hn)]; [by left|]);
    right; exists d', lease; (split; [done|]); (split; [|done]).
  - destruct (decide (d = d')) as [<-|Hne].
    + rewrite lookup_insert_eq in Hl. injection Hl as <-. by cbn in Hn.
    + rewrite lookup_insert_ne in Hl by done. by rewrite lookup_delete_ne.
  - destruct (decide (d = d')) as [<-|Hne].
    + by rewrite lookup_delete_eq in Hl.
    + rewrite lookup_delete_ne in Hl by done. by rewrite lookup_insert_ne.
Qed.

(** A new lease of this node on [d] removes from the result the candidates
    whose identifier parses to [d], and no other. *)
Theorem call_after_lease_taken node apps leases d objs get result :
  call (__init__ node apps leases) objs get = inr result →
  call (__init__ node apps (<[d := {| node_id := node |}]> leases)) objs get
  = inr (filter (λ obj, UUID_of (get obj) ≠ inr d) result).
Proof.
  rewrite !call_returns. intros [Hall ->]. split; [done|].
  rewrite list_filter_filter. apply list_filter_iff. intros obj.
  cbv beta. rewrite !in_use_init. symmetry. split.
  - intros Hn. split.
    + intros Hd. apply Hn. right. exists d, {| node_id := node |}.
      by rewrite lookup_insert_eq.
    + intros [?|(d' & lease & Hd & Hl & Hl')]; apply Hn; [by left|].
      right. destruct (decide (d = d')) as [<-|Hne].
      * exists d, {| node_id := node |}. by rewrite lookup_insert_eq.
      * exists d', lease. by rewrite lookup_insert_ne.
  - intros [Hd Hn] [?|(d' & lease & Hd' & Hl & Hl')]; apply Hn; [by left|].
    right. destruct (decide (d = d')) as [<-|Hne]; [done|].
    exists d', lease. by rewrite lookup_insert_ne in Hl.
Qed.

(** With more applications and more leases a filter returns less: what
    it returns is what it keeps of the result of the filter built from
    fewer applications and fewer leases. *)
Theorem call_monotone node apps apps' leases leases' objs get result :
  apps ⊆ apps' → leases ⊆ leases' →
  call (__init__ node apps' leases') objs get = inr result →
  ∃ result',
    call (__init__ node apps leases) objs get = inr result' ∧
    call (__init__ node apps' leases') result' get = inr result ∧
    result `sublist_of` result'.
Proof.
  intros Happs Hleases. rewrite call_returns. intros [Hall ->].
  eexists. split; [by apply call_returns|].
  assert (∀ obj, in_use (__init__ node apps leases) get obj →
                 in_use (__init__ node apps' leases') get obj) as Himp.
  { intros obj. rewrite !in_use_init.
    intros [(app & v & Hin & Hv)|(d & lease & Hd & Hl & Hn)].
    - left. exists app, v. split; [by apply Happs | done].
    - right. exists d, lease. split; [done|]. split; [|done].
      by eapply lookup_weaken. }
  assert (filter (λ obj, ¬ in_use (__init__ node apps' leases') get obj)
            (filter (λ obj, ¬ in_use (__init__ node apps leases) get obj) objs)
          = filter (λ obj, ¬ in_use (__init__ node apps' leases') get obj) objs)
    as Heq.
  { apply list_filter_filter_l. intros obj Hn Hi. by apply Hn, Himp. }
  split.
  - apply call_returns. split; [|by rewrite Heq].
    rewrite Forall_forall in *. intros obj [_ Hin]%list_elem_of_filter.
    by apply Hall.
  - rewrite <-Heq. apply sublist_filter.
Qed.

(** Whether a call raises, and what, depends on the candidates and the
    extractor only: not on the node, the applications or the leases. *)
Theorem call_raises_whatever_the_filter f f' objs get e :
  call f objs get = inl e ↔ call f' objs get = inl e.
Proof.
  rewrite !call_spec. by destruct (first_failure get objs).
Qed.

End UsageFilterComposition.

Section UsageFilterNaturality.
Context {A B : Type} {UC : UUID_constructor}.

Lemma first_failure_fmap (g : A → B) (get : B → unicode) (objs : list A) :
  first_failure get (g <$> objs) = first_failure (get ∘ g) objs.
Proof.
  induction objs as [|a objs IH]; cbn; [done|].
  by destruct (UUID_of (get (g a))).
Qed.

(** A call looks at a candidate only through [get_dataset_id]: filtering
    the images of candidates under [g] is filtering the candidates with
    the extractor composed with [g], and taking the images after. *)
Theorem call_fmap (g : A → B) (get : B → unicode) (f : NotInUseDatasets)
    (objs : list A) :
  call f (g <$> objs) get = map_result g (call f objs (get ∘ g)).
Proof.
  rewrite !call_spec, first_failure_fmap. unfold map_result.
  destruct (first_failure (get ∘ g) objs); [done|]. f_equal.
  induction objs as [|a objs IH]; [done|].
  rewrite fmap_cons, !filter_cons, IH.
  destruct (decide (¬ in_use f get (g a))) as [Hn|Hn].
  - by rewrite decide_True.
  - by rewrite decide_False.
Qed.

End UsageFilterNaturality.

(** ** The compositions on the scenario *)

Module CompositionFacts.
Import Scenario.

(** Leaving [d3] out before the call leaves it out of the result. *)
Lemma call_filter_commute_witness :
  let P := λ m : Manifestation, dataset_id m ≠ d3 in
  call (UC := stdlib) filter_A candidates default_get_dataset_id
    = inr [candidate d3; candidate d4] ∧
  call (UC := stdlib) filter_A (filter P candidates) default_get_dataset_id
    = inr (filter P [candidate d3; candidate d4]).
Proof.
  intros P.
  assert (call (UC := stdlib) filter_A candidates default_get_dataset_id
          = inr [candidate d3; candidate d4]) as Hcall by (by vm_compute).
  split; [exact Hcall|].
  exact (call_filter_commute (UC := stdlib) P filter_A candidates
           default_get_dataset_id _ Hcall).
Defined.

(** The filter of node A and a filter of node B, one after the other. *)
Lemma call_commute_witness :
  let f' := __init__ node_B [] (leases_of u2 node_A u3 node_B) in
  call (UC := stdlib) filter_A candidates default_get_dataset_id
    = inr [candidate d3; candidate d4] ∧
  call (UC := stdlib) f' candidates default_get_dataset_id
    = inr [candidate d1; candidate d2; candidate d4] ∧
  ∃ both,
    call (UC := stdlib) f' [candidate d3; candidate d4] default_get_dataset_id
      = inr both ∧
    call (UC := stdlib) filter_A [candidate d1; candidate d2; candidate d4]
         default_get_dataset_id = inr both.
Proof.
  intros f'.
  assert (call (UC := stdlib) filter_A candidates default_get_dataset_id
          = inr [candidate d3; candidate d4]) as H1 by (by vm_compute).
  assert (call (UC := stdlib) f' candidates default_get_dataset_id
          = inr [candidate d1; candidate d2; candidate d4]) as H2
    by (by vm_compute).
  split; [exact H1|]. split; [exact H2|].
  exact (call_commute (UC := stdlib) filter_A f' candidates
           default_get_dataset_id _ _ H1 H2).
Defined.

(** The users of [d1] and [d2], and the same with an application without
    a volume, in another order and with a repetition. *)
Lemma init_same_references_witness :
  let apps := [user_of d1; user_of d2] in
  let apps' := [{| volume := None |}; user_of d2; user_of d1; user_of d2] in
  (∀ u, references apps u ↔ references apps' u) ∧
  __init__ node_A apps ∅ = __init__ node_A apps' ∅.
Proof.
  intros apps apps'.
  assert (∀ u, references apps u ↔ references apps' u) as Href.
  { intros u. rewrite !references_spec. unfold apps, apps', __init__; cbn.
    rewrite !elem_of_union, !elem_of_singleton, elem_of_empty. tauto. }
  split; [exact Href|].
  exact (init_same_references node_A apps apps' ∅ Href).
Defined.

(** The lease on [d2] passes from node A to node B. *)
Lemma call_lease_moved_is_lease_released_witness :
  node_B ≠ node_A ∧
  call (UC := stdlib)
       (__init__ node_A [user_of d1]
          (<[u2 := {| node_id := node_B |}]> (leases_of u2 node_A u3 node_B)))
       candidates default_get_dataset_id
  = call (UC := stdlib)
       (__init__ node_A [user_of d1]
          (delete u2 (leases_of u2 node_A u3 node_B)))
       candidates default_get_dataset_id.
Proof.
  assert (node_B ≠ node_A) as Hne by compute_done.
  split; [exact Hne|].
  exact (call_lease_moved_is_lease_released (UC := stdlib) node_A node_B
           [user_of d1] (leases_of u2 node_A u3 node_B) u2 candidates
           default_get_dataset_id Hne).
Defined.

(** Node A takes a lease on [d4]. *)
Lemma call_after_lease_taken_witness :
  call (UC := stdlib)
       (__init__ node_A [user_of d1] (leases_of u2 node_A u3 node_B))
       candidates default_get_dataset_id
    = inr [candidate d3; candidate d4] ∧
  call (UC := stdlib)
       (__init__ node_A [user_of d1]
          (<[u4 := {| node_id := node_A |}]> (leases_of u2 node_A u3 node_B)))
       candidates default_get_dataset_id
    = inr (filter (λ obj, uuid.UUID (default_get_dataset_id obj) ≠ inr u4)
             [candidate d3; candidate d4]).
Proof.
  assert (call (UC := stdlib)
            (__init__ node_A [user_of d1] (leases_of u2 node_A u3 node_B))
            candidates default_get_dataset_id
          = inr [candidate d3; candidate d4]) as Hcall by (by vm_compute).
  split; [exact Hcall|].
  exact (call_after_lease_taken (UC := stdlib) node_A [user_of d1]
           (leases_of u2 node_A u3 node_B) u4 candidates
           default_get_dataset_id _ Hcall).
Defined.

(** The filter of node A against the filter of a node A that has no
    application and no lease. *)
Lemma call_monotone_witness :
  ([] : list Application) ⊆ [user_of d1] ∧
  (∅ : Leases) ⊆ leases_of u2 node_A u3 node_B ∧
  call (UC := stdlib) filter_A candidates default_get_dataset_id
    = inr [candidate d3; candidate d4] ∧
  ∃ result',
    call (UC := stdlib) (__init__ node_A [] ∅) candidates
         default_get_dataset_id = inr result' ∧
    call (UC := stdlib) filter_A result' default_get_dataset_id
      = inr [candidate d3; candidate d4] ∧
    [candidate d3; candidate d4] `sublist_of` result'.
Proof.
  assert (([] : list Application) ⊆ [user_of d1]) as Happs
    by apply list_subseteq_nil.
  assert ((∅ : Leases) ⊆ leases_of u2 node_A u3 node_B) as Hleases
    by apply map_empty_subseteq.
  assert (call (UC := stdlib) filter_A candidates default_get_dataset_id
          = inr [candidate d3; candidate d4]) as Hcall by (by vm_compute).
  split; [exact Happs|]. split; [exact Hleases|]. split; [exact Hcall|].
  exact (call_monotone (UC := stdlib) node_A [] [user_of d1] ∅
           (leases_of u2 node_A u3 node_B) candidates default_get_dataset_id
           _ Happs Hleases Hcall).
Defined.

End CompositionFacts.
